(** * DotNote: the message-update / display pipeline of [dotnote.py]

    A shallow embedding of the shared message slot, the update endpoint
    ([update_message], [log_message]) and the render loop ([display_loop]),
    with the external collaborators (display driver, log file, clock,
    buzzer thread) represented by their observable outcomes. *)

From Stdlib Require Import Ascii String.
From Stdlib Require Import List NArith Bool Arith Lia.
Import ListNotations.

Local Open Scope list_scope.

(** ** Python text

    A Python [str] is a sequence of Unicode code points.  Code points are
    kept as [N]; source literals are ASCII and are read through [lit]. *)

Definition char := N.
Definition str := list char.

Fixpoint lit (s : string) : str :=
  match s with
  | EmptyString => []
  | String c rest => N_of_ascii c :: lit rest
  end.

Definition str_eqb (a b : str) : bool :=
  if list_eq_dec N.eq_dec a b then true else false.

(** [str.isspace] on one code point: CPython's whitespace table. *)
Definition is_space (c : char) : bool :=
  ((9 <=? c) && (c <=? 13)
   || (28 <=? c) && (c <=? 32)
   || (c =? 133) || (c =? 160) || (c =? 5760)
   || (8192 <=? c) && (c <=? 8202)
   || (c =? 8232) || (c =? 8233) || (c =? 8239)
   || (c =? 8287) || (c =? 12288))%N.

Fixpoint lstrip (s : str) : str :=
  match s with
  | [] => []
  | c :: rest => if is_space c then lstrip rest else s
  end.

Definition rstrip (s : str) : str := rev (lstrip (rev s)).

(** [s.strip()]: whitespace removed from both ends. *)
Definition strip (s : str) : str := rstrip (lstrip s).

(** [s.endswith(suffix)]. *)
Definition endswith (s suffix : str) : bool :=
  (length suffix <=? length s)
  && str_eqb (skipn (length s - length suffix) s) suffix.

(** ** Configuration constants (lines 27-43 of the source) *)

Definition DEFAULT_MESSAGE : str := lit "Welcome to DotNote!   ".
Definition MESSAGE_SPACING : str := lit "   ".
Definition BUZZER_ENABLED : bool := true.
Definition LOG_ENABLED : bool := true.

(** The literal assigned to [current_message] in the [except] branch of
    [display_loop]. *)
Definition ERROR_MESSAGE : str := lit "Error: Unsupported character   ".

(** ** Process state and observable effects *)

(** What a call into an external collaborator does: it returns, or it
    raises an instance of [Exception] whose [str()] is [e] (the class both
    [except Exception] clauses of the source name). *)
Inductive outcome :=
| Returns
| Raises (e : str).

Inductive Event :=
| EvStoreSet (s : str)      (* current_message = s, under message_lock *)
| EvLogWrite (entry : str)  (* log_file.write(entry) reached the file *)
| EvPrint (line : str)      (* print(line) on the operator console *)
| EvBeepThread              (* threading.Thread(target=beep).start() *)
| EvShow (msg : str)        (* show_message(device, msg, ...) entered *)
| EvSleep.                  (* time.sleep(0.1) *)

Record World := mkWorld {
  current_message : str;    (* the global guarded by message_lock *)
  log_file : str;           (* contents of messages.log *)
  console : list str;       (* lines printed so far *)
  beep_threads : nat;       (* beep threads started so far *)
  trace : list Event        (* every effect, oldest first *)
}.

Definition emit (ev : Event) (w : World) : World :=
  mkWorld (current_message w) (log_file w) (console w) (beep_threads w)
          (trace w ++ [ev]).

Definition set_current_message (s : str) (w : World) : World :=
  emit (EvStoreSet s)
       (mkWorld s (log_file w) (console w) (beep_threads w) (trace w)).

Definition print (line : str) (w : World) : World :=
  emit (EvPrint line)
       (mkWorld (current_message w) (log_file w) (console w ++ [line])
                (beep_threads w) (trace w)).

Definition write_log (entry : str) (w : World) : World :=
  emit (EvLogWrite entry)
       (mkWorld (current_message w) (log_file w ++ entry) (console w)
                (beep_threads w) (trace w)).

(** Starting the daemon thread that runs [beep]; its body only drives the
    buzzer and shares nothing with the handler or the loop. *)
Definition start_beep_thread (w : World) : World :=
  emit EvBeepThread
       (mkWorld (current_message w) (log_file w) (console w)
                (S (beep_threads w)) (trace w)).

Definition initial_world (existing_log : str) : World :=
  mkWorld DEFAULT_MESSAGE existing_log [] 0 [].

(** ** The update endpoint *)

(** [request.args] (first value wins, as [MultiDict.get] does) and
    [request.remote_addr]. *)
Record Request := mkRequest {
  args : list (str * str);
  remote_addr : str
}.

Fixpoint args_get (key : str) (a : list (str * str)) : option str :=
  match a with
  | [] => None
  | (k, v) :: rest => if str_eqb k key then Some v else args_get key rest
  end.

(** What the clock and the file system do while one request is served:
    the result of [time.strftime] and the fate of the append to
    [LOG_FILE] (open, write and close taken together). *)
Record Env := mkEnv {
  timestamp : str;
  log_outcome : outcome
}.

(** A JSON object with string values, and a Flask [(body, status)] pair. *)
Definition Json := list (str * str).
Definition Response := (Json * N)%type.

Definition jsonify (d : Json) : Json := d.

Definition newline : str := [10%N].

Definition log_message (message ip : str) (env : Env) (w : World) : World :=
  if negb LOG_ENABLED then w
  else
    let log_entry :=
      timestamp env ++ lit " - " ++ ip ++ lit " - " ++ strip message
                    ++ newline in
    match log_outcome env with
    | Returns => write_log log_entry w
    | Raises e => print (lit "Error writing to log: " ++ e) w
    end.

Definition update_message (req : Request) (env : Env) (w : World)
  : Response * World :=
  match args_get (lit "message") (args req) with
  | None =>
      ((jsonify [(lit "error", lit "No valid message provided")], 400%N), w)
  | Some raw =>
      if str_eqb raw [] || str_eqb (strip raw) []
      then
        ((jsonify [(lit "error", lit "No valid message provided")], 400%N), w)
      else
        let new_message := raw ++ MESSAGE_SPACING in
        let w := set_current_message new_message w in
        let ip := remote_addr req in
        let w := log_message new_message ip env w in
        let w := if BUZZER_ENABLED then start_beep_thread w else w in
        ((jsonify [(lit "message", lit "Message updated")], 200%N), w)
  end.

(** Serving a batch of requests one after the other. *)
Fixpoint serve (reqs : list (Request * Env)) (w : World) : World :=
  match reqs with
  | [] => w
  | (req, env) :: rest => serve rest (snd (update_message req env w))
  end.

(** ** The render loop *)

(** One pass through the body of [while True], given what the display
    driver does with the snapshot. *)
Definition display_iteration (drv : outcome) (w : World) : World :=
  let msg := current_message w in
  let w := emit (EvShow msg) w in
  let w :=
    match drv with
    | Returns => w
    | Raises e =>
        let w := print (lit "Error displaying message: " ++ e) w in
        set_current_message ERROR_MESSAGE w
    end in
  emit EvSleep w.

(** The loop unrolled over the driver outcomes of its first iterations. *)
Fixpoint display_loop (drvs : list outcome) (w : World) : World :=
  match drvs with
  | [] => w
  | drv :: rest => display_loop rest (display_iteration drv w)
  end.

(** *** The loop as a thread running beside the request handlers

    The program points of [display_loop] between which another thread can
    run; [msg] is the local variable bound at line 80. *)
Inductive LoopPc :=
| PcTop                    (* about to enter  with message_lock: msg = ... *)
| PcRender (msg : str)     (* inside show_message(device, msg, ...) *)
| PcExcept (e : str)       (* in the handler, before print *)
| PcSetError               (* before  with message_lock: current_message = *)
| PcSleep.                 (* before time.sleep(0.1) *)

Definition loop_step (drv : outcome) (pc : LoopPc) (w : World)
  : LoopPc * World :=
  match pc with
  | PcTop =>
      let msg := current_message w in (PcRender msg, emit (EvShow msg) w)
  | PcRender _ =>
      match drv with
      | Returns => (PcSleep, w)
      | Raises e => (PcExcept e, w)
      end
  | PcExcept e => (PcSetError, print (lit "Error displaying message: " ++ e) w)
  | PcSetError => (PcSleep, set_current_message ERROR_MESSAGE w)
  | PcSleep => (PcTop, emit EvSleep w)
  end.

Fixpoint loop_steps (n : nat) (drv : outcome) (st : LoopPc * World)
  : LoopPc * World :=
  match n with
  | O => st
  | S k => loop_steps k drv (loop_step drv (fst st) (snd st))
  end.

(** *** A request handler as a thread

    The program points of [update_message] between which another thread
    can run: the store is assigned under the lock, the log is written and
    the beep thread is started in separate steps. *)
Inductive HandlerPc :=
| HReceived (req : Request) (env : Env)     (* at line 163 *)
| HLog (new_message ip : str) (env : Env)   (* before log_message(...) *)
| HBeep                                     (* before  if BUZZER_ENABLED *)
| HReturned (resp : Response).              (* response handed to Flask *)

Definition handler_step (h : HandlerPc) (w : World) : HandlerPc * World :=
  match h with
  | HReceived req env =>
      match args_get (lit "message") (args req) with
      | None =>
          (HReturned
             (jsonify [(lit "error", lit "No valid message provided")], 400%N),
           w)
      | Some raw =>
          if str_eqb raw [] || str_eqb (strip raw) []
          then
            (HReturned
               (jsonify [(lit "error", lit "No valid message provided")],
                400%N),
             w)
          else
            let new_message := raw ++ MESSAGE_SPACING in
            (HLog new_message (remote_addr req) env,
             set_current_message new_message w)
      end
  | HLog new_message ip env => (HBeep, log_message new_message ip env w)
  | HBeep =>
      (HReturned (jsonify [(lit "message", lit "Message updated")], 200%N),
       if BUZZER_ENABLED then start_beep_thread w else w)
  | HReturned resp => (HReturned resp, w)
  end.

Fixpoint handler_steps (n : nat) (h : HandlerPc) (w : World)
  : HandlerPc * World :=
  match n with
  | O => (h, w)
  | S k => handler_steps k (fst (handler_step h w)) (snd (handler_step h w))
  end.

(** *** The process: the loop thread, the handlers in flight, the state *)

Record Sys := mkSys {
  loop_pc : LoopPc;
  handlers : list HandlerPc;
  world : World
}.

Definition initial_sys (existing_log : str) : Sys :=
  mkSys PcTop [] (initial_world existing_log).

(** One atomic step of the whole process: the loop thread advances, a
    request arrives, or one of the handlers in flight advances. *)
Inductive sys_step : Sys -> Sys -> Prop :=
| step_loop : forall drv pc hs w,
    sys_step (mkSys pc hs w)
             (mkSys (fst (loop_step drv pc w)) hs (snd (loop_step drv pc w)))
| step_arrive : forall req env pc hs w,
    sys_step (mkSys pc hs w) (mkSys pc (hs ++ [HReceived req env]) w)
| step_handler : forall pc hs1 h hs2 w,
    sys_step (mkSys pc (hs1 ++ h :: hs2) w)
             (mkSys pc (hs1 ++ fst (handler_step h w) :: hs2)
                    (snd (handler_step h w))).

Inductive reachable (existing_log : str) : Sys -> Prop :=
| reach_init : reachable existing_log (initial_sys existing_log)
| reach_step : forall s s',
    reachable existing_log s -> sys_step s s' ->
    reachable existing_log s'.

(** The loop thread takes [n] steps with nothing in between. *)
Definition sys_loop (n : nat) (drv : outcome) (s : Sys) : Sys :=
  let r := loop_steps n drv (loop_pc s, world s) in
  mkSys (fst r) (handlers s) (snd r).

(** A request arrives and its handler runs to its return with nothing in
    between. *)
Definition sys_serve (req : Request) (env : Env) (s : Sys) : Sys :=
  let r := handler_steps 3 (HReceived req env) (world s) in
  mkSys (loop_pc s) (handlers s ++ [fst r]) (snd r).

(** The messages handed to the display driver, in order. *)
Fixpoint shown (t : list Event) : list str :=
  match t with
  | [] => []
  | EvShow msg :: rest => msg :: shown rest
  | _ :: rest => shown rest
  end.

(** ** Vocabulary of the statements below *)

(** The value of the [message] query parameter, if the request has one. *)
Definition message_of (req : Request) : option str :=
  args_get (lit "message") (args req).

(** The parameter is absent, or it trims to the empty string. *)
Definition blank (o : option str) : Prop :=
  match o with
  | None => True
  | Some raw => strip raw = []
  end.

(** A log line with the given timestamp, source address and text field. *)
Definition log_line (ts ip text : str) : str :=
  ts ++ lit " - " ++ ip ++ lit " - " ++ text ++ newline.

(** The entries written to the log file, in order. *)
Fixpoint log_writes (t : list Event) : list str :=
  match t with
  | [] => []
  | EvLogWrite entry :: rest => entry :: log_writes rest
  | _ :: rest => log_writes rest
  end.

(** The value of the store after the assignments of a trace, starting
    from [init]. *)
Fixpoint store_after (init : str) (t : list Event) : str :=
  match t with
  | [] => init
  | EvStoreSet s :: rest => store_after s rest
  | _ :: rest => store_after init rest
  end.

(** The log records an accepted update adds, by the fate of the append. *)
Definition logged (env : Env) (entry : str) : list str :=
  match log_outcome env with
  | Returns => [entry]
  | Raises _ => []
  end.

(** The effects of the logging stage of an accepted update. *)
Definition log_stage (env : Env) (entry : str) : list Event :=
  match log_outcome env with
  | Returns => [EvLogWrite entry]
  | Raises e => [EvPrint (lit "Error writing to log: " ++ e)]
  end.

(** The assignments to the store recorded in a trace. *)
Fixpoint store_sets (t : list Event) : list str :=
  match t with
  | [] => []
  | EvStoreSet s :: rest => s :: store_sets rest
  | _ :: rest => store_sets rest
  end.

(** Replaying a trace from store value [init]: every driver call in it
    was handed the value the store held at that moment. *)
Fixpoint snapshots (init : str) (t : list Event) : Prop :=
  match t with
  | [] => True
  | EvStoreSet s :: rest => snapshots s rest
  | EvShow msg :: rest => msg = init /\ snapshots init rest
  | _ :: rest => snapshots init rest
  end.

(** ** Sample requests and environments *)

Definition client : str := lit "192.168.1.7".

Definition req_hello : Request := mkRequest [(lit "message", lit "Hello")] client.
Definition req_padded : Request :=
  mkRequest [(lit "message", lit "  Hi there ")] client.
Definition req_absent : Request := mkRequest [(lit "speed", lit "3")] client.
Definition req_empty : Request := mkRequest [(lit "message", [])] client.
Definition req_spaces : Request :=
  mkRequest [(lit "message", lit "   ")] client.

Definition env_ok : Env := mkEnv (lit "2024-05-01 12:00:00") Returns.
Definition env_readonly : Env :=
  mkEnv (lit "2024-05-01 12:00:05")
        (Raises (lit "[Errno 13] Permission denied: 'messages.log'")).

(** ** Sample runs of the process *)

(** The loop has taken its first snapshot and is inside the driver call. *)
Definition st_rendering : Sys := sys_loop 1 Returns (initial_sys []).

(** An update is served while that render is in progress. *)
Definition st_updated_mid_render : Sys :=
  sys_serve req_hello env_ok st_rendering.

(** The render returns, the loop sleeps and takes its next snapshot. *)
Definition st_next_render : Sys := sys_loop 3 Returns st_updated_mid_render.

(** The first render fails instead and the handler has run. *)
Definition st_render_failed : Sys :=
  sys_loop 3 (Raises (lit "bad glyph")) st_rendering.

(** ** Vocabulary for batches of requests and runs of the loop *)

(** The text has a character that is not whitespace. *)
Definition has_ink (s : str) : bool :=
  existsb (fun c => negb (is_space c)) s.

(** The input an update is accepted with, if it is accepted. *)
Definition accepted_input (req : Request) : option str :=
  match message_of req with
  | Some raw => if has_ink raw then Some raw else None
  | None => None
  end.

(** The input of the last accepted request of a batch. *)
Fixpoint last_accepted (reqs : list (Request * Env)) : option str :=
  match reqs with
  | [] => None
  | (req, _) :: rest =>
      match last_accepted rest with
      | Some raw => Some raw
      | None => accepted_input req
      end
  end.

Definition count_accepted (reqs : list (Request * Env)) : nat :=
  length (filter (fun re => match accepted_input (fst re) with
                            | Some _ => true
                            | None => false
                            end)
                 reqs).

(** The log lines a batch adds: one per accepted request whose append
    returned, in the order served. *)
Definition entries_of (reqs : list (Request * Env)) : list str :=
  flat_map
    (fun re =>
       match accepted_input (fst re) with
       | Some raw =>
           logged (snd re)
                  (log_line (timestamp (snd re)) (remote_addr (fst re))
                            (strip raw))
       | None => []
       end)
    reqs.

(** The console lines a batch adds: one per accepted request whose append
    raised. *)
Definition log_errors_of (reqs : list (Request * Env)) : list str :=
  flat_map
    (fun re =>
       match accepted_input (fst re), log_outcome (snd re) with
       | Some _, Raises e => [lit "Error writing to log: " ++ e]
       | _, _ => []
       end)
    reqs.

Definition raised (drv : outcome) : bool :=
  match drv with
  | Returns => false
  | Raises _ => true
  end.


(** * Properties *)

(** ** Text lemmas *)

Section Text.

Lemma str_eqb_eq (a b : str) : str_eqb a b = true <-> a = b.
Proof.
  unfold str_eqb. destruct (list_eq_dec N.eq_dec a b); split; congruence.
Qed.

Lemma str_eqb_refl (a : str) : str_eqb a a = true.
Proof. now apply str_eqb_eq. Qed.

Lemma str_eqb_neq (a b : str) : str_eqb a b = false <-> a <> b.
Proof.
  unfold str_eqb. destruct (list_eq_dec N.eq_dec a b); split; congruence.
Qed.

Lemma lstrip_blank (a : str) :
  lstrip a = [] <-> forallb is_space a = true.
Proof.
  induction a as [|c a IH]; simpl.
  - tauto.
  - destruct (is_space c); simpl; [exact IH | split; discriminate].
Qed.

Lemma lstrip_app_blank (a b : str) :
  forallb is_space a = true -> lstrip (a ++ b) = lstrip b.
Proof.
  induction a as [|c a IH]; simpl; [reflexivity|].
  destruct (is_space c); simpl; [exact IH | discriminate].
Qed.

Lemma lstrip_app_keep (a b : str) :
  lstrip a <> [] -> lstrip (a ++ b) = lstrip a ++ b.
Proof.
  induction a as [|c a IH]; simpl; [congruence|].
  destruct (is_space c); [exact IH | reflexivity].
Qed.

Lemma lstrip_length (a : str) : length (lstrip a) <= length a.
Proof.
  induction a as [|c a IH]; simpl; [lia|].
  destruct (is_space c); simpl; lia.
Qed.

Lemma rstrip_app_blank (a sp : str) :
  forallb is_space sp = true -> rstrip (a ++ sp) = rstrip a.
Proof.
  intros Hsp. unfold rstrip. rewrite rev_app_distr.
  rewrite lstrip_app_blank; [reflexivity|].
  rewrite forallb_forall in *. intros c Hc. apply Hsp.
  now apply in_rev.
Qed.

Lemma rstrip_length (a : str) : length (rstrip a) <= length a.
Proof.
  unfold rstrip. rewrite length_rev.
  etransitivity; [apply lstrip_length|]. now rewrite length_rev.
Qed.

Lemma strip_length (a : str) : length (strip a) <= length a.
Proof.
  unfold strip. etransitivity; [apply rstrip_length | apply lstrip_length].
Qed.

(** Trailing whitespace added to a message does not show after [strip]. *)
Lemma strip_app_blank (m sp : str) :
  forallb is_space sp = true -> strip (m ++ sp) = strip m.
Proof.
  intros Hsp. unfold strip.
  destruct (lstrip m) as [|c r] eqn:E.
  - apply lstrip_blank in E.
    rewrite lstrip_app_blank by exact E.
    apply lstrip_blank in Hsp. now rewrite Hsp.
  - rewrite lstrip_app_keep by congruence.
    rewrite E. now apply rstrip_app_blank.
Qed.

Lemma spacing_blank : forallb is_space MESSAGE_SPACING = true.
Proof. reflexivity. Qed.

Lemma strip_spacing (m : str) : strip (m ++ MESSAGE_SPACING) = strip m.
Proof. apply strip_app_blank, spacing_blank. Qed.

Lemma strip_neq_padded (m : str) : strip m <> m ++ MESSAGE_SPACING.
Proof.
  intros H. pose proof (strip_length m) as L.
  rewrite H, length_app in L. simpl in L. lia.
Qed.

Lemma endswith_app (s suffix : str) : endswith (s ++ suffix) suffix = true.
Proof.
  unfold endswith. rewrite length_app.
  replace (length s + length suffix - length suffix) with (length s) by lia.
  rewrite skipn_app, skipn_all, Nat.sub_diag. simpl.
  rewrite str_eqb_refl, andb_true_r.
  apply Nat.leb_le. lia.
Qed.

End Text.

Example strip_both_ends :
  strip (lit "  Hello world" ++ [9%N; 32%N]) = lit "Hello world".
Proof. reflexivity. Qed.

Example strip_unicode_space :
  strip ([12288%N] ++ lit "Hi" ++ [160%N; 8232%N]) = lit "Hi".
Proof. reflexivity. Qed.

Example strip_inner_kept : strip (lit " a  b ") = lit "a  b".
Proof. reflexivity. Qed.

Example strip_blank : strip (lit "   ") = [].
Proof. reflexivity. Qed.

Example default_ends_spaced : endswith DEFAULT_MESSAGE (lit "   ") = true.
Proof. reflexivity. Qed.

(** ** The update endpoint *)

Section Update.

Variables (req : Request) (env : Env) (w : World).

Lemma update_rejects :
  blank (message_of req) ->
  update_message req env w =
    (([(lit "error", lit "No valid message provided")], 400%N), w).
Proof.
  unfold blank, message_of, update_message.
  destruct (args_get (lit "message") (args req)) as [raw|]; [|reflexivity].
  intros H. rewrite H, str_eqb_refl, orb_true_r. reflexivity.
Qed.

Lemma update_accepts (raw : str) :
  message_of req = Some raw -> strip raw <> [] ->
  update_message req env w =
    (([(lit "message", lit "Message updated")], 200%N),
     start_beep_thread
       (log_message (raw ++ MESSAGE_SPACING) (remote_addr req) env
          (set_current_message (raw ++ MESSAGE_SPACING) w))).
Proof.
  unfold message_of, update_message. intros -> Hne.
  assert (Hraw : str_eqb raw [] = false).
  { apply str_eqb_neq. intros ->. now apply Hne. }
  assert (Hs : str_eqb (strip raw) [] = false) by now apply str_eqb_neq.
  rewrite Hraw, Hs. reflexivity.
Qed.

(** What the logging operation leaves behind, by the fate of the append. *)
Lemma log_message_raises (message ip e : str) (v : World) :
  log_outcome env = Raises e ->
  log_message message ip env v = print (lit "Error writing to log: " ++ e) v.
Proof. unfold log_message. intros ->. reflexivity. Qed.

Lemma log_message_store (message ip : str) (v : World) :
  current_message (log_message message ip env v) = current_message v.
Proof. unfold log_message. simpl. now destruct (log_outcome env). Qed.

End Update.

Lemma blank_dec (o : option str) : {blank o} + {~ blank o}.
Proof.
  destruct o as [raw|]; simpl; [|now left].
  apply (list_eq_dec N.eq_dec).
Qed.

Lemma log_line_inj (ts ip a b : str) :
  log_line ts ip a = log_line ts ip b -> a = b.
Proof.
  unfold log_line. intros H.
  do 4 apply app_inv_head in H. now apply app_inv_tail in H.
Qed.

(** C1. A request whose [message] parameter [m] is non-empty after
    trimming and equal to its own trim is served successfully and leaves
    the message store holding exactly [m] followed by the three-space
    separator. *)
Theorem update_stores_message_and_separator :
  forall (req : Request) (env : Env) (w : World) (m : str),
    message_of req = Some m ->
    strip m <> [] ->
    strip m = m ->
    snd (fst (update_message req env w)) = 200%N /\
    current_message (snd (update_message req env w)) = m ++ lit "   ".
Proof.
  intros req env w m Hm Hne _.
  rewrite (update_accepts req env w m Hm Hne). simpl.
  split; [reflexivity|]. apply log_message_store.
Qed.

Lemma update_stores_message_and_separator_witness :
  message_of req_hello = Some (lit "Hello") /\
  current_message (snd (update_message req_hello env_ok (initial_world [])))
    = lit "Hello   ".
Proof.
  split; [reflexivity|].
  apply (update_stores_message_and_separator
           req_hello env_ok (initial_world []) (lit "Hello")).
  - reflexivity.
  - discriminate.
  - reflexivity.
Defined.

(** C2. The handler answers [{"error": "No valid message provided"}] with
    status 400 exactly when the [message] parameter is absent or trims to
    the empty string, and [{"message": "Message updated"}] with status 200
    otherwise. *)
Theorem update_response :
  forall (req : Request) (env : Env) (w : World),
    (fst (update_message req env w)
       = ([(lit "error", lit "No valid message provided")], 400%N)
     <-> blank (message_of req))
    /\
    (~ blank (message_of req) ->
     fst (update_message req env w)
       = ([(lit "message", lit "Message updated")], 200%N)).
Proof.
  intros req env w.
  assert (Hok : ~ blank (message_of req) ->
                fst (update_message req env w)
                  = ([(lit "message", lit "Message updated")], 200%N)).
  { intros Hnb. destruct (message_of req) as [raw|] eqn:E; simpl in Hnb.
    - now rewrite (update_accepts req env w raw E Hnb).
    - now destruct Hnb. }
  split; [split|exact Hok].
  - intros Herr. destruct (blank_dec (message_of req)) as [Hb|Hnb]; [exact Hb|].
    rewrite (Hok Hnb) in Herr. discriminate.
  - intros Hb. now rewrite (update_rejects req env w Hb).
Qed.

Example response_hello :
  fst (update_message req_hello env_ok (initial_world []))
    = ([(lit "message", lit "Message updated")], 200%N).
Proof. reflexivity. Qed.

Example response_absent :
  fst (update_message req_absent env_ok (initial_world []))
    = ([(lit "error", lit "No valid message provided")], 400%N).
Proof. reflexivity. Qed.

Example response_spaces :
  fst (update_message req_spaces env_ok (initial_world []))
    = ([(lit "error", lit "No valid message provided")], 400%N).
Proof. reflexivity. Qed.

(** C5. Requests whose [message] parameter is absent, empty or
    whitespace-only leave the whole process state as it was -- message
    store, log file, started beep threads, console and effect trace --
    however many of them are served in a row. *)
Theorem rejected_requests_leave_no_trace :
  forall (reqs : list (Request * Env)) (w : World),
    Forall (fun re => blank (message_of (fst re))) reqs ->
    serve reqs w = w /\
    current_message (serve reqs w) = current_message w /\
    log_file (serve reqs w) = log_file w /\
    beep_threads (serve reqs w) = beep_threads w.
Proof.
  intros reqs w Hall.
  assert (H : serve reqs w = w).
  { induction Hall as [|[req env] rest Hb _ IH]; simpl; [reflexivity|].
    simpl in Hb. now rewrite (update_rejects req env w Hb). }
  now rewrite H.
Qed.

Lemma rejected_requests_leave_no_trace_witness :
  serve [(req_absent, env_ok); (req_empty, env_ok); (req_spaces, env_readonly);
         (req_spaces, env_ok)] (initial_world (lit "old"))
    = initial_world (lit "old").
Proof.
  apply (rejected_requests_leave_no_trace
           [(req_absent, env_ok); (req_empty, env_ok);
            (req_spaces, env_readonly); (req_spaces, env_ok)]
           (initial_world (lit "old"))).
  repeat constructor.
Defined.

(** C7. When the append to the log file raises during an accepted update,
    the logging operation absorbs the error (it only prints it): the
    handler still answers 200 with the success body, the store holds the
    new value and the beep thread is started. *)
Theorem log_failure_is_contained :
  forall (req : Request) (env : Env) (w : World) (raw e : str),
    message_of req = Some raw ->
    strip raw <> [] ->
    log_outcome env = Raises e ->
    let w' := snd (update_message req env w) in
    log_message (raw ++ MESSAGE_SPACING) (remote_addr req) env
                (set_current_message (raw ++ MESSAGE_SPACING) w)
      = print (lit "Error writing to log: " ++ e)
              (set_current_message (raw ++ MESSAGE_SPACING) w)
    /\ fst (update_message req env w)
         = ([(lit "message", lit "Message updated")], 200%N)
    /\ current_message w' = raw ++ MESSAGE_SPACING
    /\ beep_threads w' = S (beep_threads w)
    /\ console w' = console w ++ [lit "Error writing to log: " ++ e]
    /\ trace w' = trace w ++ [EvStoreSet (raw ++ MESSAGE_SPACING);
                              EvPrint (lit "Error writing to log: " ++ e);
                              EvBeepThread].
Proof.
  intros req env w raw e Hm Hne Hlog w'. subst w'.
  rewrite (update_accepts req env w raw Hm Hne).
  rewrite (log_message_raises env _ _ e _ Hlog). simpl.
  repeat split; try reflexivity.
  now rewrite <- !app_assoc.
Qed.

Lemma log_failure_is_contained_witness :
  fst (update_message req_hello env_readonly (initial_world []))
    = ([(lit "message", lit "Message updated")], 200%N)
  /\ current_message
       (snd (update_message req_hello env_readonly (initial_world [])))
     = lit "Hello   "
  /\ beep_threads
       (snd (update_message req_hello env_readonly (initial_world []))) = 1.
Proof.
  pose proof (log_failure_is_contained
                req_hello env_readonly (initial_world []) (lit "Hello")
                (lit "[Errno 13] Permission denied: 'messages.log'")
                eq_refl ltac:(discriminate) eq_refl) as H.
  simpl in H. destruct H as (_ & Hr & Hs & Hb & _).
  repeat split; assumption.
Defined.

Lemma log_writes_app (t u : list Event) :
  log_writes (t ++ u) = log_writes t ++ log_writes u.
Proof.
  induction t as [|ev t IH]; simpl; [reflexivity|].
  destruct ev; simpl; now rewrite IH.
Qed.

Lemma accepted_update_log (req : Request) (env : Env) (w : World) (raw : str) :
  message_of req = Some raw ->
  strip raw <> [] ->
  let w' := snd (update_message req env w) in
  let entry := log_line (timestamp env) (remote_addr req) (strip raw) in
  log_writes (trace w') = log_writes (trace w) ++ logged env entry
  /\ log_file w' = log_file w ++ concat (logged env entry).
Proof.
  intros Hm Hne w' entry. subst w' entry.
  rewrite (update_accepts req env w raw Hm Hne).
  unfold log_message, logged. simpl. rewrite strip_spacing.
  destruct (log_outcome env); simpl; rewrite !log_writes_app; simpl;
    rewrite ?app_nil_r; split; reflexivity.
Qed.

(** C10. An accepted input with leading or trailing whitespace is stored
    raw, separator appended, and not in its trimmed form; only the text
    field of the log record is the trimmed input. *)
Theorem store_keeps_untrimmed_input :
  forall (req : Request) (env : Env) (w : World) (raw : str),
    message_of req = Some raw ->
    strip raw <> [] ->
    strip raw <> raw ->
    let w' := snd (update_message req env w) in
    let entry := log_line (timestamp env) (remote_addr req) (strip raw) in
    current_message w' = raw ++ MESSAGE_SPACING
    /\ current_message w' <> strip raw ++ MESSAGE_SPACING
    /\ log_writes (trace w') = log_writes (trace w) ++ logged env entry
    /\ entry <> log_line (timestamp env) (remote_addr req) raw.
Proof.
  intros req env w raw Hm Hne Hws w' entry.
  destruct (accepted_update_log req env w raw Hm Hne) as [Hlog _].
  fold w' entry in Hlog. subst w' entry.
  rewrite (update_accepts req env w raw Hm Hne) in *. simpl.
  rewrite log_message_store. simpl.
  repeat split.
  - intros H. apply app_inv_tail in H. congruence.
  - exact Hlog.
  - intros H. apply log_line_inj in H. congruence.
Qed.

Lemma store_keeps_untrimmed_input_witness :
  current_message (snd (update_message req_padded env_ok (initial_world [])))
    = lit "  Hi there    "
  /\ log_file (snd (update_message req_padded env_ok (initial_world [])))
     = lit "2024-05-01 12:00:00 - 192.168.1.7 - Hi there" ++ newline.
Proof.
  split; [|reflexivity].
  apply (store_keeps_untrimmed_input
           req_padded env_ok (initial_world []) (lit "  Hi there ")).
  - reflexivity.
  - discriminate.
  - discriminate.
Defined.

(** C3, refuted as stated: an accepted update whose append to the log
    file raises is answered with 200 and adds no line to the log. *)
Lemma accepted_update_without_log_line :
  let w0 := initial_world (lit "old") in
  let r := update_message req_hello env_readonly w0 in
  message_of req_hello = Some (lit "Hello")
  /\ fst r = ([(lit "message", lit "Message updated")], 200%N)
  /\ log_file (snd r) = log_file w0
  /\ log_writes (trace (snd r)) = []
  /\ log_file (snd r)
       <> log_file w0
            ++ log_line (timestamp env_readonly) (remote_addr req_hello)
                        (strip (lit "Hello")).
Proof.
  cbv zeta. repeat split; try reflexivity.
  vm_compute. discriminate.
Qed.

(** C3, amended. An accepted update whose append to the log file does not
    raise adds exactly one line [<timestamp> - <source address> - <text>]
    with a final newline, whose text is the trimmed original input and not
    the separator-padded value of the store; when the append raises no line
    is added; a rejected update adds none. *)
Theorem log_line_per_accepted_update :
  forall (req : Request) (env : Env) (w : World),
    let w' := snd (update_message req env w) in
    (forall raw,
        message_of req = Some raw -> strip raw <> [] ->
        let entry := log_line (timestamp env) (remote_addr req) (strip raw) in
        (log_outcome env = Returns ->
         log_file w' = log_file w ++ entry
         /\ log_writes (trace w') = log_writes (trace w) ++ [entry])
        /\ (forall e, log_outcome env = Raises e ->
            log_file w' = log_file w
            /\ log_writes (trace w') = log_writes (trace w))
        /\ entry <> log_line (timestamp env) (remote_addr req)
                             (raw ++ MESSAGE_SPACING))
    /\ (blank (message_of req) ->
        log_file w' = log_file w
        /\ log_writes (trace w') = log_writes (trace w)).
Proof.
  intros req env w w'. split.
  - intros raw Hm Hne entry.
    destruct (accepted_update_log req env w raw Hm Hne) as [Hw Hf].
    fold w' entry in Hw, Hf. unfold logged in Hw, Hf.
    split; [|split].
    + intros Hret. rewrite Hret in Hw, Hf. simpl in Hf.
      rewrite app_nil_r in Hf. now split.
    + intros e Hraise. rewrite Hraise in Hw, Hf. simpl in Hf.
      rewrite app_nil_r in Hw, Hf. now split.
    + intros H. apply log_line_inj in H. now apply strip_neq_padded in H.
  - intros Hb. subst w'. now rewrite (update_rejects req env w Hb).
Qed.

Lemma log_line_per_accepted_update_witness :
  log_file (snd (update_message req_padded env_ok (initial_world (lit "old"))))
    = lit "old2024-05-01 12:00:00 - 192.168.1.7 - Hi there" ++ newline
  /\ log_file (snd (update_message req_spaces env_ok (initial_world (lit "old"))))
     = lit "old".
Proof.
  split.
  - pose proof (log_line_per_accepted_update
                  req_padded env_ok (initial_world (lit "old"))) as H.
    destruct H as [H _].
    destruct (H (lit "  Hi there ") eq_refl ltac:(discriminate)) as [Hret _].
    exact (proj1 (Hret eq_refl)).
  - pose proof (log_line_per_accepted_update
                  req_spaces env_ok (initial_world (lit "old"))) as H.
    destruct H as [_ H]. exact (proj1 (H eq_refl)).
Defined.

Lemma accepted_update_trace (req : Request) (env : Env) (w : World)
      (raw : str) :
  message_of req = Some raw ->
  strip raw <> [] ->
  trace (snd (update_message req env w))
    = trace w
        ++ [EvStoreSet (raw ++ MESSAGE_SPACING)]
        ++ log_stage env
             (log_line (timestamp env) (remote_addr req) (strip raw))
        ++ [EvBeepThread].
Proof.
  intros Hm Hne.
  rewrite (update_accepts req env w raw Hm Hne).
  unfold log_message, log_stage. simpl. rewrite strip_spacing.
  destruct (log_outcome env); simpl; now rewrite <- !app_assoc.
Qed.

(** C6, refuted as stated: when the append to the log file raises, an
    accepted update overwrites the store and starts the beep thread with
    no log record appended in between. *)
Lemma accepted_update_skips_log_record :
  let r := update_message req_hello env_readonly (initial_world []) in
  fst r = ([(lit "message", lit "Message updated")], 200%N)
  /\ trace (snd r)
     = [EvStoreSet (lit "Hello   ");
        EvPrint (lit "Error writing to log: [Errno 13] Permission denied: 'messages.log'");
        EvBeepThread]
  /\ trace (snd r)
     <> [EvStoreSet (lit "Hello   ");
         EvLogWrite (log_line (timestamp env_readonly)
                              (remote_addr req_hello) (lit "Hello"));
         EvBeepThread].
Proof.
  cbv zeta. repeat split; try reflexivity.
  vm_compute. discriminate.
Qed.

(** C6, amended. The effects of an accepted update occur in this order:
    first the store is overwritten with the normalized message, then the
    logging operation runs (it appends the log record, or prints the error
    when the append raises), then the beep thread is started. *)
Theorem update_effects_in_order :
  forall (req : Request) (env : Env) (w : World) (raw : str),
    message_of req = Some raw ->
    strip raw <> [] ->
    trace (snd (update_message req env w))
      = trace w
          ++ [EvStoreSet (raw ++ MESSAGE_SPACING)]
          ++ log_stage env
               (log_line (timestamp env) (remote_addr req) (strip raw))
          ++ [EvBeepThread].
Proof.
  intros req env w raw Hm Hne. now apply accepted_update_trace.
Qed.

Lemma update_effects_in_order_witness :
  trace (snd (update_message req_hello env_ok (initial_world [])))
    = [EvStoreSet (lit "Hello   ");
       EvLogWrite (lit "2024-05-01 12:00:00 - 192.168.1.7 - Hello" ++ newline);
       EvBeepThread].
Proof.
  apply (update_effects_in_order
           req_hello env_ok (initial_world []) (lit "Hello")).
  - reflexivity.
  - discriminate.
Defined.

(** ** The render loop *)

Lemma shown_app (t u : list Event) : shown (t ++ u) = shown t ++ shown u.
Proof.
  induction t as [|ev t IH]; simpl; [reflexivity|].
  destruct ev; simpl; now rewrite IH.
Qed.

Lemma store_sets_app (t u : list Event) :
  store_sets (t ++ u) = store_sets t ++ store_sets u.
Proof.
  induction t as [|ev t IH]; simpl; [reflexivity|].
  destruct ev; simpl; now rewrite IH.
Qed.

Lemma display_iteration_shows (drv : outcome) (w : World) :
  shown (trace (display_iteration drv w))
    = shown (trace w) ++ [current_message w].
Proof.
  unfold display_iteration. destruct drv; simpl;
    rewrite !shown_app; simpl; now rewrite ?app_nil_r.
Qed.

(** The loop runs one driver call per outcome it is given: no outcome,
    failing or not, ends it. *)
Lemma display_loop_runs_all (drvs : list outcome) (w : World) :
  length (shown (trace (display_loop drvs w)))
    = length (shown (trace w)) + length drvs.
Proof.
  revert w. induction drvs as [|drv rest IH]; intros w; simpl; [lia|].
  rewrite IH, display_iteration_shows, length_app. simpl. lia.
Qed.

(** C4. An iteration whose driver call raises prints the reason,
    overwrites the store with the sentinel message and arrives back at the
    top of the loop, whose later iterations all run; an iteration whose
    driver call returns leaves the store alone. *)
Theorem render_failure_is_recovered :
  forall (w : World),
    (forall e,
        let w' := display_iteration (Raises e) w in
        console w' = console w ++ [lit "Error displaying message: " ++ e]
        /\ current_message w' = lit "Error: Unsupported character   "
        /\ trace w' = trace w ++ [EvShow (current_message w);
                                  EvPrint (lit "Error displaying message: " ++ e);
                                  EvStoreSet ERROR_MESSAGE;
                                  EvSleep]
        /\ loop_steps 5 (Raises e) (PcTop, w) = (PcTop, w')
        /\ forall rest,
             length (shown (trace (display_loop (Raises e :: rest) w)))
               = length (shown (trace w)) + 1 + length rest)
    /\
    (let w' := display_iteration Returns w in
     current_message w' = current_message w
     /\ store_sets (trace w') = store_sets (trace w)
     /\ trace w' = trace w ++ [EvShow (current_message w); EvSleep]
     /\ loop_steps 3 Returns (PcTop, w) = (PcTop, w')).
Proof.
  intros w. split.
  - intros e w'. subst w'.
    split; [reflexivity|]. split; [reflexivity|].
    split; [unfold display_iteration; simpl; now rewrite <- !app_assoc|].
    split; [reflexivity|].
    intros rest. rewrite display_loop_runs_all. simpl. lia.
  - cbv zeta. unfold display_iteration. simpl.
    repeat split; try reflexivity.
    + rewrite !store_sets_app. simpl. now rewrite !app_nil_r.
    + now rewrite <- !app_assoc.
Qed.

Example loop_survives_failure :
  let w := display_loop [Raises (lit "bad glyph"); Returns] (initial_world []) in
  shown (trace w) = [DEFAULT_MESSAGE; ERROR_MESSAGE]
  /\ current_message w = ERROR_MESSAGE.
Proof. split; reflexivity. Qed.

(** ** The loop beside the request handlers *)

(** A handler running alone does what [update_message] does. *)
Lemma handler_steps_update (req : Request) (env : Env) (w : World) :
  handler_steps 3 (HReceived req env) w
    = (HReturned (fst (update_message req env w)),
       snd (update_message req env w)).
Proof.
  unfold update_message, handler_steps.
  replace (handler_step (HReceived req env) w) with
    (match args_get (lit "message") (args req) with
     | None =>
         (HReturned
            (jsonify [(lit "error", lit "No valid message provided")], 400%N),
          w)
     | Some raw =>
         if str_eqb raw [] || str_eqb (strip raw) []
         then
           (HReturned
              (jsonify [(lit "error", lit "No valid message provided")],
               400%N),
            w)
         else
           (HLog (raw ++ MESSAGE_SPACING) (remote_addr req) env,
            set_current_message (raw ++ MESSAGE_SPACING) w)
     end) by reflexivity.
  destruct (args_get (lit "message") (args req)) as [raw|]; [|reflexivity].
  destruct (str_eqb raw [] || str_eqb (strip raw) []); reflexivity.
Qed.

Lemma sys_serve_world (req : Request) (env : Env) (s : Sys) :
  world (sys_serve req env s) = snd (update_message req env (world s)).
Proof. unfold sys_serve. now rewrite handler_steps_update. Qed.

Lemma store_after_app (init : str) (t u : list Event) :
  store_after init (t ++ u) = store_after (store_after init t) u.
Proof.
  revert init. induction t as [|ev t IH]; intros init; simpl; [reflexivity|].
  destruct ev; simpl; apply IH.
Qed.

Lemma snapshots_app (init : str) (t u : list Event) :
  snapshots init (t ++ u)
  <-> snapshots init t /\ snapshots (store_after init t) u.
Proof.
  revert init. induction t as [|ev t IH]; intros init; simpl; [tauto|].
  destruct ev; simpl; rewrite ?IH; tauto.
Qed.

Lemma snapshots_split (init : str) (tr t rest : list Event) (msg : str) :
  snapshots init tr ->
  tr = t ++ EvShow msg :: rest ->
  msg = store_after init t.
Proof.
  intros Hs ->. apply snapshots_app in Hs. simpl in Hs. tauto.
Qed.

(** What one step of the process adds to the trace: the store follows
    the assignments, a driver call is handed the store value of the moment,
    and a render in progress stays in progress unless the loop moved. *)
Lemma sys_step_effects (s s' : Sys) :
  sys_step s s' ->
  exists evs,
    trace (world s') = trace (world s) ++ evs
    /\ current_message (world s')
         = store_after (current_message (world s)) evs
    /\ snapshots (current_message (world s)) evs
    /\ (forall msg, loop_pc s' = PcRender msg ->
          (loop_pc s = PcRender msg /\ shown evs = [])
          \/ evs = [EvShow msg]).
Proof.
  intros Hstep.
  destruct Hstep as [drv pc hs w|req env pc hs w|pc hs1 h hs2 w]; simpl.
  - destruct pc; simpl.
    + exists [EvShow (current_message w)].
      simpl. repeat split; auto. intros msg [= <-]. now right.
    + exists []. destruct drv; rewrite app_nil_r; simpl;
        repeat split; auto; discriminate.
    + exists [EvPrint (lit "Error displaying message: " ++ e)].
      simpl. repeat split; auto. discriminate.
    + exists [EvStoreSet ERROR_MESSAGE].
      simpl. repeat split; auto. discriminate.
    + exists [EvSleep].
      simpl. repeat split; auto. discriminate.
  - exists []. rewrite app_nil_r. simpl. repeat split; auto.
  - destruct h as [req env|new_message ip env| |resp]; unfold handler_step.
    + destruct (args_get (lit "message") (args req)) as [raw|];
        [destruct (str_eqb raw [] || str_eqb (strip raw) [])|]; simpl.
      * exists []. rewrite app_nil_r. simpl. repeat split; auto.
      * exists [EvStoreSet (raw ++ MESSAGE_SPACING)].
        simpl. repeat split; auto.
      * exists []. rewrite app_nil_r. simpl. repeat split; auto.
    + unfold log_message. simpl. destruct (log_outcome env) as [|e]; simpl.
      * exists [EvLogWrite
                  (timestamp env ++ lit " - " ++ ip ++ lit " - "
                     ++ strip new_message ++ newline)].
        simpl. repeat split; auto.
      * exists [EvPrint (lit "Error writing to log: " ++ e)].
        simpl. repeat split; auto.
    + exists [EvBeepThread]. simpl. repeat split; auto.
    + exists []. rewrite app_nil_r. simpl. repeat split; auto.
Qed.

(** Every assignment to the store writes the sentinel or an input with
    the spacing appended. *)
Lemma sys_step_store (s s' : Sys) :
  sys_step s s' ->
  current_message (world s') = current_message (world s)
  \/ current_message (world s') = ERROR_MESSAGE
  \/ exists raw, current_message (world s') = raw ++ MESSAGE_SPACING.
Proof.
  intros Hstep.
  destruct Hstep as [drv pc hs w|req env pc hs w|pc hs1 h hs2 w]; simpl.
  - destruct pc; simpl; auto. destruct drv; simpl; auto.
  - now left.
  - destruct h as [req env|new_message ip env| |resp]; unfold handler_step.
    + destruct (args_get (lit "message") (args req)) as [raw|];
        [destruct (str_eqb raw [] || str_eqb (strip raw) [])|]; simpl; eauto.
    + left. apply log_message_store.
    + now left.
    + now left.
Qed.

Lemma reachable_sys_loop (existing_log : str) (n : nat) (drv : outcome)
      (s : Sys) :
  reachable existing_log s -> reachable existing_log (sys_loop n drv s).
Proof.
  revert s. induction n as [|n IH]; intros [pc hs w] H.
  - exact H.
  - pose proof (reach_step _ _ _ H (step_loop drv pc hs w)) as H'.
    unfold sys_loop. simpl.
    destruct (loop_step drv pc w) as [pc' w']. exact (IH _ H').
Qed.

Lemma reachable_sys_serve (existing_log : str) (req : Request) (env : Env)
      (s : Sys) :
  reachable existing_log s -> reachable existing_log (sys_serve req env s).
Proof.
  destruct s as [pc hs w]. intros H. unfold sys_serve. simpl.
  pose proof (reach_step _ _ _ H (step_arrive req env pc hs w)) as H0.
  pose proof (reach_step _ _ _ H0 (step_handler pc hs _ [] w)) as H1.
  pose proof (reach_step _ _ _ H1 (step_handler pc hs _ [] _)) as H2.
  exact (reach_step _ _ _ H2 (step_handler pc hs _ [] _)).
Qed.

Lemma reachable_rendering : reachable [] st_rendering.
Proof. apply reachable_sys_loop, reach_init. Qed.

Lemma reachable_updated_mid_render : reachable [] st_updated_mid_render.
Proof. apply reachable_sys_serve, reachable_rendering. Qed.

(** C9. In every state the process can reach -- by steps of the render
    loop and of any number of request handlers, in any interleaving -- the
    message store ends with three spaces; so do the default message, the
    sentinel error message and whatever an accepted update stores. *)
Theorem store_ends_with_separator :
  endswith DEFAULT_MESSAGE (lit "   ") = true
  /\ endswith ERROR_MESSAGE (lit "   ") = true
  /\ (forall raw, endswith (raw ++ MESSAGE_SPACING) (lit "   ") = true)
  /\ (forall existing_log s,
        reachable existing_log s ->
        endswith (current_message (world s)) (lit "   ") = true).
Proof.
  assert (Hupd : forall raw,
             endswith (raw ++ MESSAGE_SPACING) (lit "   ") = true)
    by (intros raw; apply endswith_app).
  repeat split; try reflexivity; [exact Hupd|].
  intros existing_log s Hreach.
  induction Hreach as [|s s' _ IH Hstep]; [reflexivity|].
  destruct (sys_step_store s s' Hstep) as [-> | [-> | [raw ->]]].
  - exact IH.
  - reflexivity.
  - apply Hupd.
Qed.

Lemma store_ends_with_separator_witness :
  reachable [] st_render_failed
  /\ current_message (world st_render_failed) = ERROR_MESSAGE
  /\ endswith (current_message (world st_render_failed)) (lit "   ") = true.
Proof.
  assert (H : reachable [] st_render_failed)
    by apply reachable_sys_loop, reachable_rendering.
  split; [exact H|]. split; [reflexivity|].
  exact (proj2 (proj2 (proj2 store_ends_with_separator)) [] _ H).
Defined.

(** The three facts the process maintains at every reachable state. *)
Lemma reachable_invariant (existing_log : str) (s : Sys) :
  reachable existing_log s ->
  current_message (world s) = store_after DEFAULT_MESSAGE (trace (world s))
  /\ snapshots DEFAULT_MESSAGE (trace (world s))
  /\ (forall msg, loop_pc s = PcRender msg ->
        exists t rest,
          trace (world s) = t ++ EvShow msg :: rest /\ shown rest = []).
Proof.
  induction 1 as [|s s' _ (Hcur & Hsnap & Hpc) Hstep].
  - simpl. repeat split; auto. discriminate.
  - destruct (sys_step_effects s s' Hstep) as (evs & Ht & Hc & Hs & Hr).
    rewrite Ht, Hc, store_after_app, <- Hcur. split; [reflexivity|].
    split.
    + apply snapshots_app. rewrite <- Hcur. now split.
    + intros msg Hmsg. destruct (Hr msg Hmsg) as [[Hold Hno]| ->].
      * destruct (Hpc msg Hold) as (t & rest & Htr & Hrest).
        exists t, (rest ++ evs). rewrite Htr, <- app_assoc. simpl.
        split; [reflexivity|]. now rewrite shown_app, Hrest, Hno.
      * exists (trace (world s)), []. now split.
Qed.

(** C8. In any interleaving of the render loop with update requests,
    every driver call is handed the value the store held when its
    iteration took the snapshot; while that call is in progress the text
    being rendered stays that snapshot whatever has been assigned to the
    store since and no further driver call is made, and the store itself
    follows the assignments, so they are seen by the snapshot of the next
    iteration. *)
Theorem render_uses_snapshot :
  forall (existing_log : str) (s : Sys),
    reachable existing_log s ->
    (forall t msg rest,
        trace (world s) = t ++ EvShow msg :: rest ->
        msg = store_after DEFAULT_MESSAGE t)
    /\ (forall msg,
          loop_pc s = PcRender msg ->
          exists t rest,
            trace (world s) = t ++ EvShow msg :: rest
            /\ shown rest = []
            /\ msg = store_after DEFAULT_MESSAGE t
            /\ current_message (world s) = store_after msg rest)
    /\ current_message (world s)
         = store_after DEFAULT_MESSAGE (trace (world s))
    /\ (forall drv,
          fst (loop_step drv PcTop (world s))
            = PcRender (current_message (world s))).
Proof.
  intros existing_log s Hreach.
  destruct (reachable_invariant existing_log s Hreach)
    as (Hcur & Hsnap & Hpc).
  split; [|split; [|split]].
  - intros t msg rest Htr. eapply snapshots_split; eauto.
  - intros msg Hmsg. destruct (Hpc msg Hmsg) as (t & rest & Htr & Hrest).
    exists t, rest. repeat split; auto.
    + eapply snapshots_split; eauto.
    + rewrite Hcur, Htr, store_after_app. simpl.
      now rewrite <- (snapshots_split _ _ _ _ _ Hsnap Htr).
  - exact Hcur.
  - reflexivity.
Qed.

Lemma render_uses_snapshot_witness :
  loop_pc st_updated_mid_render = PcRender DEFAULT_MESSAGE
  /\ current_message (world st_updated_mid_render) = lit "Hello   "
  /\ exists t rest,
       trace (world st_updated_mid_render)
         = t ++ EvShow DEFAULT_MESSAGE :: rest
       /\ shown rest = []
       /\ DEFAULT_MESSAGE = store_after DEFAULT_MESSAGE t
       /\ current_message (world st_updated_mid_render)
            = store_after DEFAULT_MESSAGE rest.
Proof.
  split; [reflexivity|]. split; [reflexivity|].
  apply (render_uses_snapshot [] st_updated_mid_render).
  - exact reachable_updated_mid_render.
  - reflexivity.
Defined.

Example update_seen_by_next_iteration :
  shown (trace (world st_updated_mid_render)) = [DEFAULT_MESSAGE]
  /\ loop_pc st_next_render = PcRender (lit "Hello   ")
  /\ shown (trace (world st_next_render))
     = [DEFAULT_MESSAGE; lit "Hello   "].
Proof. repeat split; reflexivity. Qed.

(** * Further properties of the code *)

(** ** Trimming and validation *)

Lemma lstrip_split (a : str) :
  exists pre, a = pre ++ lstrip a /\ forallb is_space pre = true.
Proof.
  induction a as [|c a (pre & Ha & Hpre)]; simpl.
  - now exists [].
  - destruct (is_space c) eqn:E.
    + exists (c :: pre). simpl. rewrite E, Hpre. split; [now f_equal|easy].
    + now exists [].
Qed.

Lemma lstrip_head (a r : str) (c : char) :
  lstrip a = c :: r -> is_space c = false.
Proof.
  induction a as [|d a IH]; simpl; [discriminate|].
  destruct (is_space d) eqn:E; [exact IH|].
  now intros [= <- _].
Qed.

Lemma lstrip_fixed (a : str) :
  (forall c r, a = c :: r -> is_space c = false) -> lstrip a = a.
Proof.
  destruct a as [|c r]; simpl; [reflexivity|].
  intros H. now rewrite (H c r eq_refl).
Qed.

Lemma forallb_rev (a : str) :
  forallb is_space (rev a) = forallb is_space a.
Proof.
  induction a as [|c a IH]; simpl; [reflexivity|].
  rewrite forallb_app, IH. simpl. rewrite andb_true_r. apply andb_comm.
Qed.

Lemma rstrip_split (a : str) :
  exists post, a = rstrip a ++ post /\ forallb is_space post = true.
Proof.
  destruct (lstrip_split (rev a)) as (pre & Ha & Hpre).
  exists (rev pre). unfold rstrip. split.
  - rewrite <- rev_app_distr, <- Ha. now rewrite rev_involutive.
  - now rewrite forallb_rev.
Qed.

Lemma rstrip_last (a r : str) (c : char) :
  rstrip a = r ++ [c] -> is_space c = false.
Proof.
  unfold rstrip. intros H. apply (f_equal (@rev char)) in H.
  rewrite rev_involutive, rev_app_distr in H. simpl in H.
  eapply lstrip_head; eassumption.
Qed.

Lemma strip_head (a r : str) (c : char) :
  strip a = c :: r -> is_space c = false.
Proof.
  unfold strip. intros H.
  destruct (rstrip_split (lstrip a)) as (post & Hl & _).
  rewrite H in Hl. simpl in Hl. eapply lstrip_head; eassumption.
Qed.

Lemma strip_blank_iff (a : str) :
  strip a = [] <-> forallb is_space a = true.
Proof.
  unfold strip. split.
  - intros H. destruct (rstrip_split (lstrip a)) as (post & Hl & Hpost).
    rewrite H in Hl. simpl in Hl.
    destruct (lstrip a) as [|c r] eqn:E.
    + now apply lstrip_blank.
    + pose proof (lstrip_head a r c E) as Hc. subst post.
      simpl in Hpost. now rewrite Hc in Hpost.
  - intros H. apply lstrip_blank in H. now rewrite H.
Qed.

Lemma has_ink_strip (a : str) : has_ink a = true <-> strip a <> [].
Proof.
  rewrite strip_blank_iff. unfold has_ink.
  induction a as [|c a IH]; simpl; [split; congruence|].
  destruct (is_space c); simpl; [exact IH|].
  split; [discriminate|reflexivity].
Qed.

Lemma strip_pad (pre m post : str) :
  forallb is_space pre = true -> forallb is_space post = true ->
  strip (pre ++ m ++ post) = strip m.
Proof.
  intros Hpre Hpost. rewrite <- (strip_app_blank m post Hpost).
  unfold strip. now rewrite lstrip_app_blank.
Qed.

(** The handler's two outcomes, by the input it accepts. *)
Lemma update_by_accepted_input (req : Request) (env : Env) (w : World) :
  match accepted_input req with
  | Some raw =>
      message_of req = Some raw /\ strip raw <> [] /\
      update_message req env w =
        (([(lit "message", lit "Message updated")], 200%N),
         start_beep_thread
           (log_message (raw ++ MESSAGE_SPACING) (remote_addr req) env
              (set_current_message (raw ++ MESSAGE_SPACING) w)))
  | None =>
      blank (message_of req) /\
      update_message req env w =
        (([(lit "error", lit "No valid message provided")], 400%N), w)
  end.
Proof.
  unfold accepted_input.
  destruct (message_of req) as [raw|] eqn:Hm.
  - destruct (has_ink raw) eqn:Hink.
    + apply has_ink_strip in Hink.
      repeat split; auto. now apply update_accepts.
    + assert (Hb : strip raw = []).
      { destruct (list_eq_dec N.eq_dec (strip raw) []) as [Hs|Hs]; [easy|].
        apply has_ink_strip in Hs. congruence. }
      split; [exact Hb|]. apply update_rejects. now rewrite Hm.
  - split; [exact I|]. apply update_rejects. now rewrite Hm.
Qed.

(** X1. A request is answered with the success response exactly when its
    [message] parameter is present and holds at least one character that is
    not whitespace. *)
Theorem accepted_iff_visible_character :
  forall (req : Request) (env : Env) (w : World),
    fst (update_message req env w)
      = ([(lit "message", lit "Message updated")], 200%N)
    <-> exists raw,
          message_of req = Some raw
          /\ existsb (fun c => negb (is_space c)) raw = true.
Proof.
  intros req env w.
  pose proof (update_by_accepted_input req env w) as H.
  unfold accepted_input in H.
  destruct (message_of req) as [raw|].
  - destruct (has_ink raw) eqn:Hink.
    + destruct H as (_ & _ & ->). split; [|reflexivity].
      intros _. now exists raw.
    + destruct H as (_ & ->). split; [discriminate|].
      intros (raw' & [= <-] & Hraw'). unfold has_ink in Hink. congruence.
  - destruct H as (_ & ->). split; [discriminate|].
    now intros (raw' & [=] & _).
Qed.

(** X2. Trimming only removes a run of whitespace at each end: the input
    is the trimmed text between two runs of whitespace, and the trimmed
    text neither begins nor ends with whitespace, so whitespace inside the
    message is kept in the log. *)
Theorem strip_removes_outer_whitespace_only :
  forall (s : str),
    (exists pre post,
        s = pre ++ strip s ++ post
        /\ forallb is_space pre = true
        /\ forallb is_space post = true)
    /\ (forall c r, strip s = c :: r -> is_space c = false)
    /\ (forall r c, strip s = r ++ [c] -> is_space c = false).
Proof.
  intros s. split; [|split].
  - destruct (lstrip_split s) as (pre & Hs & Hpre).
    destruct (rstrip_split (lstrip s)) as (post & Hl & Hpost).
    exists pre, post. unfold strip. now rewrite <- Hl.
  - intros c r. apply strip_head.
  - intros r c. unfold strip. apply rstrip_last.
Qed.

(** X3. The logging operation is insensitive to whitespace around the
    message: padding the message with whitespace on either side leaves the
    state it produces, and so the line it writes, the same. *)
Theorem log_message_ignores_padding :
  forall (pre m post ip : str) (env : Env) (w : World),
    forallb is_space pre = true ->
    forallb is_space post = true ->
    log_message (pre ++ m ++ post) ip env w = log_message m ip env w.
Proof.
  intros pre m post ip env w Hpre Hpost.
  unfold log_message. now rewrite strip_pad.
Qed.

Lemma log_message_ignores_padding_witness :
  log_message (lit "  " ++ lit "Hi there" ++ [9%N; 160%N]) client env_ok
              (initial_world [])
    = log_message (lit "Hi there") client env_ok (initial_world []).
Proof.
  apply (log_message_ignores_padding
           (lit "  ") (lit "Hi there") [9%N; 160%N] client env_ok
           (initial_world [])); reflexivity.
Defined.

(** ** Batches of requests *)

(** The fields of the state after one request, by the input accepted. *)
Lemma update_fields (req : Request) (env : Env) (w : World) :
  let w' := snd (update_message req env w) in
  current_message w'
    = match accepted_input req with
      | Some raw => raw ++ MESSAGE_SPACING
      | None => current_message w
      end
  /\ beep_threads w' = beep_threads w + count_accepted [(req, env)]
  /\ log_file w' = log_file w ++ concat (entries_of [(req, env)])
  /\ console w' = console w ++ log_errors_of [(req, env)].
Proof.
  pose proof (update_by_accepted_input req env w) as H.
  unfold count_accepted, entries_of, log_errors_of. simpl.
  destruct (accepted_input req) as [raw|].
  - destruct H as (_ & _ & ->). unfold log_message, logged. simpl.
    rewrite strip_spacing.
    destruct (log_outcome env); simpl; rewrite ?app_nil_r;
      repeat split; auto; lia.
  - destruct H as (_ & ->). simpl. rewrite ?app_nil_r.
    repeat split; auto.
Qed.

Lemma serve_store (reqs : list (Request * Env)) (w : World) :
  current_message (serve reqs w)
    = match last_accepted reqs with
      | Some raw => raw ++ MESSAGE_SPACING
      | None => current_message w
      end.
Proof.
  revert w. induction reqs as [|[req env] rest IH]; intros w; simpl;
    [reflexivity|].
  rewrite IH. destruct (last_accepted rest); [reflexivity|].
  apply (update_fields req env w).
Qed.

(** X4. The last accepted request wins: after a batch of requests served
    one after the other the store holds the input of the last accepted one
    with the spacing appended, whatever came before it and however many
    rejected requests follow; a batch with no accepted request leaves the
    store as it was. *)
Theorem last_accepted_update_wins :
  forall (reqs : list (Request * Env)) (w : World),
    current_message (serve reqs w)
      = match last_accepted reqs with
        | Some raw => raw ++ MESSAGE_SPACING
        | None => current_message w
        end.
Proof. intros reqs w. apply serve_store. Qed.

Example last_accepted_sample :
  current_message
    (serve [(req_hello, env_ok); (req_padded, env_readonly);
            (req_spaces, env_ok); (req_absent, env_ok)] (initial_world []))
    = lit "  Hi there    ".
Proof. reflexivity. Qed.

(** X5. Accounting of a batch: it starts one beep thread per accepted
    request, extends the log file by the lines of the accepted requests
    whose append returned, in the order served, and prints one error line
    per accepted request whose append raised; nothing else is added to
    the log or the console. *)
Theorem batch_accounting :
  forall (reqs : list (Request * Env)) (w : World),
    beep_threads (serve reqs w) = beep_threads w + count_accepted reqs
    /\ log_file (serve reqs w) = log_file w ++ concat (entries_of reqs)
    /\ console (serve reqs w) = console w ++ log_errors_of reqs.
Proof.
  induction reqs as [|[req env] rest IH]; intros w; simpl.
  - unfold count_accepted. simpl. rewrite !app_nil_r, Nat.add_0_r.
    repeat split; reflexivity.
  - destruct (IH (snd (update_message req env w))) as (Hb & Hl & Hc).
    destruct (update_fields req env w) as (_ & Hb1 & Hl1 & Hc1).
    rewrite Hb, Hl, Hc, Hb1, Hl1, Hc1.
    unfold count_accepted, entries_of, log_errors_of. simpl.
    rewrite !app_nil_r.
    destruct (accepted_input req); simpl;
      rewrite ?concat_app, <- ?app_assoc; repeat split; auto; lia.
Qed.

Example batch_accounting_sample :
  let w := serve [(req_hello, env_ok); (req_spaces, env_ok);
                  (req_padded, env_readonly); (req_padded, env_ok)]
                 (initial_world (lit "old")) in
  beep_threads w = 3
  /\ log_file w
     = lit "old2024-05-01 12:00:00 - 192.168.1.7 - Hello" ++ newline
        ++ lit "2024-05-01 12:00:00 - 192.168.1.7 - Hi there" ++ newline
  /\ length (console w) = 1.
Proof. repeat split; reflexivity. Qed.

(** ** The render loop on its own *)

Lemma display_iteration_store (drv : outcome) (w : World) :
  current_message (display_iteration drv w)
    = if raised drv then ERROR_MESSAGE else current_message w.
Proof. now destruct drv. Qed.

Lemma display_loop_app (a b : list outcome) (w : World) :
  display_loop (a ++ b) w = display_loop b (display_loop a w).
Proof.
  revert w. induction a as [|drv a IH]; intros w; simpl; [reflexivity|].
  apply IH.
Qed.

(** While the store does not change, the loop shows the same text again. *)
Lemma display_loop_steady (drvs : list outcome) (w : World) :
  existsb raised drvs = false \/ current_message w = ERROR_MESSAGE ->
  current_message (display_loop drvs w) = current_message w
  /\ shown (trace (display_loop drvs w))
     = shown (trace w) ++ repeat (current_message w) (length drvs).
Proof.
  revert w. induction drvs as [|drv rest IH]; intros w H; simpl.
  - now rewrite app_nil_r.
  - assert (Hsame : current_message (display_iteration drv w)
                    = current_message w).
    { rewrite display_iteration_store. destruct H as [H|H].
      - simpl in H. apply orb_false_elim in H. now rewrite (proj1 H).
      - rewrite H. now destruct (raised drv). }
    destruct (IH (display_iteration drv w)) as [Hc Hs].
    { destruct H as [H|H]; [left|right].
      - simpl in H. apply orb_false_elim in H. tauto.
      - congruence. }
    rewrite Hc, Hs, Hsame, display_iteration_shows, <- app_assoc.
    now split.
Qed.

(** X6. Left to itself the render loop touches nothing but the store and
    the console: the log file and the count of beep threads are unchanged,
    one error line is printed per failed iteration, and the store ends up
    holding the sentinel if any iteration failed and its old value
    otherwise. *)
Theorem display_loop_footprint :
  forall (drvs : list outcome) (w : World),
    log_file (display_loop drvs w) = log_file w
    /\ beep_threads (display_loop drvs w) = beep_threads w
    /\ console (display_loop drvs w)
       = console w
           ++ flat_map
                (fun drv =>
                   match drv with
                   | Returns => []
                   | Raises e => [lit "Error displaying message: " ++ e]
                   end)
                drvs
    /\ current_message (display_loop drvs w)
       = if existsb raised drvs then ERROR_MESSAGE else current_message w.
Proof.
  induction drvs as [|drv rest IH]; intros w; simpl.
  - now rewrite app_nil_r.
  - destruct (IH (display_iteration drv w)) as (Hl & Hb & Hc & Hs).
    rewrite Hl, Hb, Hc, Hs, display_iteration_store.
    destruct drv as [|e]; simpl; repeat split; auto.
    + now rewrite <- app_assoc.
    + now destruct (existsb raised rest).
Qed.

(** X7. What the loop renders when no update arrives: the same snapshot
    in every iteration up to and including the first one whose driver call
    raises, and the sentinel in every iteration after that, whether those
    later calls raise or return. *)
Theorem loop_shows_snapshot_then_sentinel :
  forall (before after : list outcome) (e : str) (w : World),
    existsb raised before = false ->
    shown (trace (display_loop (before ++ Raises e :: after) w))
      = shown (trace w)
          ++ repeat (current_message w) (S (length before))
          ++ repeat ERROR_MESSAGE (length after).
Proof.
  intros before after e w Hb.
  rewrite display_loop_app. simpl.
  destruct (display_loop_steady before w (or_introl Hb)) as [Hc Hs].
  destruct (display_loop_steady after
              (display_iteration (Raises e) (display_loop before w))
              (or_intror eq_refl)) as [_ Hs'].
  rewrite Hs', display_iteration_shows, Hs, Hc.
  change (current_message
            (display_iteration (Raises e) (display_loop before w)))
    with ERROR_MESSAGE.
  rewrite <- !app_assoc. f_equal.
  rewrite app_assoc, <- repeat_cons. reflexivity.
Qed.

Lemma loop_shows_snapshot_then_sentinel_witness :
  shown (trace (display_loop
                  [Returns; Returns; Raises (lit "bad glyph"); Returns;
                   Raises (lit "again")]
                  (initial_world [])))
    = [DEFAULT_MESSAGE; DEFAULT_MESSAGE; DEFAULT_MESSAGE;
       ERROR_MESSAGE; ERROR_MESSAGE].
Proof.
  apply (loop_shows_snapshot_then_sentinel
           [Returns; Returns] [Returns; Raises (lit "again")]
           (lit "bad glyph") (initial_world [])).
  reflexivity.
Defined.

(** An update, accepted or not, makes no driver call. *)
Lemma update_shown (req : Request) (env : Env) (w : World) :
  shown (trace (snd (update_message req env w))) = shown (trace w).
Proof.
  pose proof (update_by_accepted_input req env w) as H.
  destruct (accepted_input req) as [raw|].
  - destruct H as (Hm & Hne & _).
    rewrite (accepted_update_trace req env w raw Hm Hne), !shown_app.
    unfold log_stage. destruct (log_outcome env); simpl;
      now rewrite app_nil_r.
  - destruct H as (_ & ->). reflexivity.
Qed.

(** X8. Recovery from a render failure: the failed iteration leaves the
    sentinel in the store, an update accepted after it replaces the
    sentinel, and the following iteration hands the driver the new message
    with the spacing appended; if that call returns the store still holds
    the new message. *)
Theorem update_after_failure_is_rendered :
  forall (w : World) (e : str) (req : Request) (env : Env) (raw : str)
         (drv : outcome),
    message_of req = Some raw ->
    strip raw <> [] ->
    let w1 := display_iteration (Raises e) w in
    let w2 := snd (update_message req env w1) in
    let w3 := display_iteration drv w2 in
    current_message w1 = ERROR_MESSAGE
    /\ current_message w2 = raw ++ MESSAGE_SPACING
    /\ shown (trace w3)
       = shown (trace w) ++ [current_message w; raw ++ MESSAGE_SPACING]
    /\ (drv = Returns -> current_message w3 = raw ++ MESSAGE_SPACING).
Proof.
  intros w e req env raw drv Hm Hne w1 w2 w3.
  assert (H2 : current_message w2 = raw ++ MESSAGE_SPACING).
  { subst w2. rewrite (update_accepts req env w1 raw Hm Hne). simpl.
    apply log_message_store. }
  split; [reflexivity|]. split; [exact H2|]. split.
  - subst w3. rewrite display_iteration_shows, H2.
    subst w2. rewrite update_shown.
    subst w1. rewrite display_iteration_shows.
    now rewrite <- app_assoc.
  - intros ->. subst w3. now rewrite display_iteration_store.
Qed.

Lemma update_after_failure_is_rendered_witness :
  shown (trace
           (display_iteration Returns
              (snd (update_message req_hello env_ok
                      (display_iteration (Raises (lit "bad glyph"))
                                         (initial_world []))))))
    = [DEFAULT_MESSAGE; lit "Hello   "].
Proof.
  apply (update_after_failure_is_rendered
           (initial_world []) (lit "bad glyph") req_hello env_ok
           (lit "Hello") Returns).
  - reflexivity.
  - discriminate.
Defined.

Lemma serve_shown (reqs : list (Request * Env)) (w : World) :
  shown (trace (serve reqs w)) = shown (trace w).
Proof.
  revert w. induction reqs as [|[req env] rest IH]; intros w; simpl;
    [reflexivity|].
  now rewrite IH, update_shown.
Qed.

(** X11. Updates that arrive between two snapshots are superseded by the
    last of them: after any batch of requests the next iteration hands the
    driver the input of the last accepted request, spacing appended (or
    the text already in the store if none was accepted), and none of the
    earlier inputs of the batch is ever rendered. *)
Theorem only_latest_update_is_rendered :
  forall (reqs : list (Request * Env)) (drv : outcome) (w : World),
    shown (trace (display_iteration drv (serve reqs w)))
      = shown (trace w)
          ++ [match last_accepted reqs with
              | Some raw => raw ++ MESSAGE_SPACING
              | None => current_message w
              end].
Proof.
  intros reqs drv w.
  now rewrite display_iteration_shows, serve_shown, serve_store.
Qed.

Example only_latest_sample :
  shown (trace (display_iteration Returns
                  (serve [(req_hello, env_ok); (req_padded, env_ok);
                          (req_empty, env_ok)]
                         (display_iteration Returns (initial_world [])))))
    = [DEFAULT_MESSAGE; lit "  Hi there    "].
Proof. reflexivity. Qed.

(** ** The whole process, in any interleaving *)


(** One step of the process makes at most one driver call, with the
    value of the store. *)
Lemma sys_step_shown (s s' : Sys) :
  sys_step s s' ->
  shown (trace (world s')) = shown (trace (world s))
  \/ shown (trace (world s'))
     = shown (trace (world s)) ++ [current_message (world s)].
Proof.
  intros Hstep.
  destruct Hstep as [drv pc hs w|req env pc hs w|pc hs1 h hs2 w]; simpl.
  - destruct pc; [right|left..]; simpl; rewrite ?shown_app; simpl;
      rewrite ?app_nil_r; try reflexivity.
    now destruct drv.
  - now left.
  - left. destruct h as [req env|new_message ip env| |resp];
      unfold handler_step.
    + destruct (args_get (lit "message") (args req)) as [raw|];
        [destruct (str_eqb raw [] || str_eqb (strip raw) [])|]; simpl;
        rewrite ?shown_app; simpl; now rewrite ?app_nil_r.
    + unfold log_message. simpl.
      destruct (log_outcome env); simpl; rewrite shown_app; simpl;
        now rewrite app_nil_r.
    + simpl. rewrite shown_app. simpl. now rewrite app_nil_r.
    + reflexivity.
Qed.

Lemma reachable_store_suffix (existing_log : str) (s : Sys) :
  reachable existing_log s ->
  endswith (current_message (world s)) MESSAGE_SPACING = true.
Proof.
  induction 1 as [|s s' _ IH Hstep]; [reflexivity|].
  destruct (sys_step_store s s' Hstep) as [-> | [-> | [raw ->]]].
  - exact IH.
  - reflexivity.
  - apply endswith_app.
Qed.

(** X9. Whatever the interleaving of the loop with request handlers,
    every text handed to the display driver ends with the three-space
    separator; in particular the driver is never given an empty text. *)
Theorem shown_messages_end_with_spacing :
  forall (existing_log : str) (s : Sys),
    reachable existing_log s ->
    Forall (fun msg => endswith msg (lit "   ") = true /\ msg <> [])
           (shown (trace (world s))).
Proof.
  intros existing_log s Hreach.
  induction Hreach as [|s s' Hs IH Hstep]; [constructor|].
  destruct (sys_step_shown s s' Hstep) as [-> | ->]; [exact IH|].
  apply Forall_app. split; [exact IH|].
  constructor; [|constructor].
  pose proof (reachable_store_suffix existing_log s Hs) as Hend.
  split; [exact Hend|].
  intros Hnil. rewrite Hnil in Hend. discriminate.
Qed.

Lemma shown_messages_end_with_spacing_witness :
  Forall (fun msg => endswith msg (lit "   ") = true /\ msg <> [])
         [DEFAULT_MESSAGE; lit "Hello   "].
Proof.
  apply (shown_messages_end_with_spacing [] st_next_render).
  apply reachable_sys_loop, reachable_updated_mid_render.
Defined.

(** What one step of the process does to the log file. *)
Lemma sys_step_log (s s' : Sys) :
  sys_step s s' ->
  exists entries,
    log_writes (trace (world s')) = log_writes (trace (world s)) ++ entries
    /\ log_file (world s') = log_file (world s) ++ concat entries.
Proof.
  intros Hstep.
  destruct Hstep as [drv pc hs w|req env pc hs w|pc hs1 h hs2 w]; simpl.
  - exists []. simpl. rewrite !app_nil_r.
    destruct pc as [|msg|e| |]; [| destruct drv |..]; simpl;
      rewrite ?log_writes_app; simpl; rewrite ?app_nil_r;
      split; reflexivity.
  - exists []. simpl. now rewrite !app_nil_r.
  - destruct h as [req env|new_message ip env| |resp]; unfold handler_step.
    + exists [].
      destruct (args_get (lit "message") (args req)) as [raw|];
        [destruct (str_eqb raw [] || str_eqb (strip raw) [])|]; simpl;
        rewrite ?log_writes_app; simpl; now rewrite ?app_nil_r.
    + unfold log_message. simpl. destruct (log_outcome env) as [|e]; simpl.
      * exists [timestamp env ++ lit " - " ++ ip ++ lit " - "
                  ++ strip new_message ++ newline].
        rewrite log_writes_app. simpl. now rewrite app_nil_r.
      * exists []. rewrite log_writes_app. simpl. now rewrite !app_nil_r.
    + exists []. simpl. rewrite log_writes_app. simpl.
      now rewrite !app_nil_r.
    + exists []. simpl. now rewrite !app_nil_r.
Qed.

(** X10. The log file is append-only in every interleaving: a step of the
    process keeps the file it found as a prefix of the file it leaves, and
    in every reachable state the file is the content found at startup
    followed by the lines written since, in the order written. *)
Theorem log_file_is_append_only :
  (forall s s',
      sys_step s s' ->
      exists suffix, log_file (world s') = log_file (world s) ++ suffix)
  /\ (forall existing_log s,
        reachable existing_log s ->
        log_file (world s)
          = existing_log ++ concat (log_writes (trace (world s)))).
Proof.
  split.
  - intros s s' Hstep.
    destruct (sys_step_log s s' Hstep) as (entries & _ & Hf).
    now exists (concat entries).
  - intros existing_log s Hreach.
    induction Hreach as [|s s' _ IH Hstep].
    + simpl. now rewrite app_nil_r.
    + destruct (sys_step_log s s' Hstep) as (entries & Hw & Hf).
      now rewrite Hf, Hw, IH, concat_app, app_assoc.
Qed.

Lemma log_file_is_append_only_witness :
  log_file (world (sys_serve req_padded env_ok
                     (sys_serve req_hello env_readonly
                        (sys_serve req_hello env_ok (initial_sys (lit "old"))))))
    = lit "old"
        ++ concat [lit "2024-05-01 12:00:00 - 192.168.1.7 - Hello" ++ newline;
                   lit "2024-05-01 12:00:00 - 192.168.1.7 - Hi there"
                     ++ newline].
Proof.
  apply (proj2 log_file_is_append_only (lit "old")).
  do 3 apply reachable_sys_serve. apply reach_init.
Defined.



